(** * A shallow embedding of the check-in timeline (checkin.py, checkin_timeline.py)

    Times are modelled as [Z] (a [datetime.datetime] at a fixed resolution,
    e.g. seconds since an epoch) and window sizes as [Z] (a
    [datetime.timedelta] in the same unit), so that [time2 - time1 <
    window_size] is the integer comparison.  A [CheckInTimeline] is its
    [checkins] list; its methods are state transformers on that list. *)

From Stdlib Require Import ZArith List Bool String Ascii Sorted Permutation Lia.
Import ListNotations.
Open Scope Z_scope.

(** ** checkin.py *)

(** The [Pokeball] enum (pokeball.py) is not part of the sources; a ball is
    carried as the integer value of its member, as in [main.py]
    ([Pokeball(int(ball_type))]). *)
Definition Pokeball := Z.

(** A [CheckIn] as the timeline uses it: [time] holds a point in time. *)
Record CheckIn := mkCheckIn {
  name : string;
  pokeball : Pokeball;
  location : string;
  time : Z
}.

(** [__lt__], [__le__], [__gt__], [__ge__]: comparisons of [self.time]
    with [other.time]. *)
Definition CheckIn_lt (self other : CheckIn) : bool := time self <? time other.
Definition CheckIn_le (self other : CheckIn) : bool := time self <=? time other.
Definition CheckIn_gt (self other : CheckIn) : bool := time self >? time other.
Definition CheckIn_ge (self other : CheckIn) : bool := time self >=? time other.

(** ** Python's [sorted]

    [sorted] is a stable sort that only calls [__lt__].  A stable sort's
    output is determined by the comparison, so it is modelled by insertion
    sort: each element is inserted before the first element it is
    strictly less than, i.e. after every element it is not less than. *)
Fixpoint insert_sorted (x : CheckIn) (acc : list CheckIn) : list CheckIn :=
  match acc with
  | [] => [x]
  | y :: ys => if CheckIn_lt x y then x :: y :: ys else y :: insert_sorted x ys
  end.

Definition sorted (l : list CheckIn) : list CheckIn :=
  fold_left (fun acc x => insert_sorted x acc) l [].

(** ** checkin_timeline.py *)

(** The timeline object is its [checkins] list; a method is a state
    transformer returning the method's result and the new object. *)
Definition CheckInTimeline := list CheckIn.
Definition St (A : Type) := CheckInTimeline -> A * CheckInTimeline.

(** [__init__]: [self.checkins = []]. *)
Definition CheckInTimeline_init : CheckInTimeline := [].

(** [add]: [self.checkins.append(checkin)] then
    [self.checkins = sorted(self.checkins)]; returns [None]. *)
Definition add (checkin : CheckIn) : St unit :=
  fun self => let checkins := self ++ [checkin] in (tt, sorted checkins).

(** A sequence of [add] calls on a fresh timeline, in order. *)
Fixpoint add_all (cs : list CheckIn) (self : CheckInTimeline) : CheckInTimeline :=
  match cs with
  | [] => self
  | c :: cs' => add_all cs' (snd (add c self))
  end.

(** The inner loop of [windows]: [for index2 in range(index, size)],
    appending [checkin2] while [(time2 - time1) < window_size] and
    [break]ing at the first check-in that is not. *)
Fixpoint scan_window (time1 window_size : Z) (rest : list CheckIn) : list CheckIn :=
  match rest with
  | [] => []
  | checkin2 :: rest' =>
      if time checkin2 - time1 <? window_size
      then checkin2 :: scan_window time1 window_size rest'
      else []
  end.

(** The tuple yielded for position [index]; [checkin1 = self.checkins[index]]
    (in range, since [index < size]). *)
Definition window_at (checkins : list CheckIn) (window_size : Z) (index : nat)
  : list CheckIn :=
  match nth_error checkins index with
  | Some checkin1 => scan_window (time checkin1) window_size (skipn index checkins)
  | None => []
  end.

(** [windows]: [for index in range(size)] yields [window_at index]. *)
Definition windows_list (checkins : list CheckIn) (window_size : Z)
  : list (list CheckIn) :=
  map (window_at checkins window_size) (seq 0 (List.length checkins)).

(** As a method: it reads [self.checkins] and leaves the object unchanged. *)
Definition windows (window_size : Z) : St (list (list CheckIn)) :=
  fun self => (windows_list self window_size, self).

(** Exceptions raised along the modelled paths. *)
Inductive Exn :=
| DataError (msg : string)
| IndexError (msg : string)
| ValueError (msg : string).

(** What the body of [rendezvous]'s loop does with one window. *)
Inductive Step :=
| Skip
| Yield (p : CheckIn * CheckIn)
| Raise (e : Exn).

(** [tup]: [(window[0],)] followed by each of [window[1:]] whose location
    equals [window[0].location], in window order ([[]] for an empty window,
    where [window[0]] raises instead). *)
Definition candidate_group (window : list CheckIn) : list CheckIn :=
  match window with
  | [] => []
  | first :: rest =>
      first :: filter (fun window2 => String.eqb (location first) (location window2)) rest
  end.

Definition too_many_msg : string := "DataError: Too many members at rendezvous".

(** One iteration of [for window in self.windows(window_size)]. *)
Definition rendezvous_window (window : list CheckIn) : Step :=
  match window with
  | [] => Raise (IndexError "tuple index out of range")
  | _ :: _ =>
      let tup := candidate_group window in
      if (List.length tup <? 2)%nat then Skip
      else if (List.length tup =? 2)%nat then
        match tup with
        | [a; b] => Yield (a, b)
        | _ => Skip (* unreachable: [tup] has length 2 *)
        end
      else Raise (DataError too_many_msg)
  end.

(** The generator run to its end: the pairs it yields, and the exception
    that ends it ([None] when it is exhausted normally). *)
Fixpoint rendezvous_gen (ws : list (list CheckIn))
  : list (CheckIn * CheckIn) * option Exn :=
  match ws with
  | [] => ([], None)
  | window :: ws' =>
      match rendezvous_window window with
      | Skip => rendezvous_gen ws'
      | Yield p => let '(ps, e) := rendezvous_gen ws' in (p :: ps, e)
      | Raise e => ([], Some e)
      end
  end.

Definition rendezvous_list (checkins : list CheckIn) (window_size : Z)
  : list (CheckIn * CheckIn) * option Exn :=
  rendezvous_gen (windows_list checkins window_size).

(** [rendezvous] as a method: it reads [self.checkins] only. *)
Definition rendezvous (window_size : Z) : St (list (CheckIn * CheckIn) * option Exn) :=
  fun self => (rendezvous_list self window_size, self).

(** The pairs the windows of [ws] yield, ignoring exceptions. *)
Definition yielded (ws : list (list CheckIn)) : list (CheckIn * CheckIn) :=
  flat_map (fun window => match rendezvous_window window with
                          | Yield p => [p]
                          | _ => []
                          end) ws.

(** ** [CheckIn.__init__] and [CheckIn.__str__] as written

    [__init__] assigns its four arguments to the attributes unchanged: the
    [time] argument is the string read from the file, and it is stored as
    that string. *)
Record CheckInObj := mkCheckInObj {
  obj_name : string;
  obj_pokeball : Pokeball;
  obj_location : string;
  obj_time : string
}.

Definition CheckIn_init (name : string) (pokeball : Pokeball) (location time : string)
  : Exn + CheckInObj :=
  inr {| obj_name := name; obj_pokeball := pokeball;
         obj_location := location; obj_time := time |}.

(** A necessary condition for a string to parse as an absolute date-time in
    any format: a date-time names at least a year, so it has a digit. *)
Definition is_digit (c : ascii) : bool :=
  let n := nat_of_ascii c in (48 <=? n)%nat && (n <=? 57)%nat.

Fixpoint has_digit (s : string) : bool :=
  match s with
  | EmptyString => false
  | String c s' => is_digit c || has_digit s'
  end.

(** [str.format] on replacement fields with explicit positional indices
    ([{0}], [{1}], ...), the form [__str__] uses.  [field] is [Some n]
    inside a replacement field whose digits so far read [n].  A missing
    positional argument raises [IndexError], as in Python. *)
Definition prepend (a : string) (r : Exn + string) : Exn + string :=
  match r with inl e => inl e | inr s => inr (a ++ s)%string end.

Fixpoint format_go (args : list string) (field : option nat) (s : string)
  : Exn + string :=
  match s, field with
  | EmptyString, None => inr EmptyString
  | EmptyString, Some _ => inl (ValueError "expected '}' before end of string")
  | String c s', None =>
      if Ascii.eqb c "{"%char then format_go args (Some 0%nat) s'
      else prepend (String c EmptyString) (format_go args None s')
  | String c s', Some n =>
      if Ascii.eqb c "}"%char then
        match nth_error args n with
        | Some a => prepend a (format_go args None s')
        | None => inl (IndexError "Replacement index out of range for positional args tuple")
        end
      else if is_digit c then format_go args (Some (10 * n + (nat_of_ascii c - 48))%nat) s'
      else inl (ValueError "unsupported format field")
  end.

Definition format (template : string) (args : list string) : Exn + string :=
  format_go args None template.

(** [__str__]: [("{1} at {2} with a/an {3} ({4})").format(self.name,
    self.location, self.pokeball, self.time)].  [str_ball] renders a
    [Pokeball] member (its [__str__] lives in pokeball.py). *)
Definition CheckIn_str (str_ball : Pokeball -> string) (self : CheckInObj)
  : Exn + string :=
  format "{1} at {2} with a/an {3} ({4})"
    [obj_name self; obj_location self; str_ball (obj_pokeball self); obj_time self].

(** ** main.py

    [load_timeline] reads the rows [csv.reader] yields for the file (opening
    the file is not modelled).  The conversion [Pokeball(int(ball_type))]
    is the argument [to_ball]: pokeball.py is not part of the sources. *)

(** A [dict] from strings to strings: an association list in insertion
    order; assigning a key already present replaces its value in place. *)
Definition Dict := list (string * string).

Fixpoint dict_setitem (d : Dict) (k v : string) : Dict :=
  match d with
  | [] => [(k, v)]
  | (k', v') :: d' =>
      if String.eqb k k' then (k', v) :: d' else (k', v') :: dict_setitem d' k v
  end.

Fixpoint dict_get (d : Dict) (k : string) : option string :=
  match d with
  | [] => None
  | (k', v') :: d' => if String.eqb k k' then Some v' else dict_get d' k
  end.

(** [CheckIn.__lt__] on check-ins as [load_timeline] builds them: [time] is
    the string of the file, so [sorted] compares the strings (code point by
    code point; [String.ltb] compares bytes, the same order on ASCII). *)
Definition CheckInObj_lt (self other : CheckInObj) : bool :=
  String.ltb (obj_time self) (obj_time other).

Fixpoint insert_sorted_obj (x : CheckInObj) (acc : list CheckInObj) : list CheckInObj :=
  match acc with
  | [] => [x]
  | y :: ys => if CheckInObj_lt x y then x :: y :: ys else y :: insert_sorted_obj x ys
  end.

Definition sorted_obj (l : list CheckInObj) : list CheckInObj :=
  fold_left (fun acc x => insert_sorted_obj x acc) l [].

(** [timeline.add(checkin)] on those check-ins. *)
Definition add_obj (checkin : CheckInObj) (checkins : list CheckInObj) : list CheckInObj :=
  sorted_obj (checkins ++ [checkin]).

(** One pass of [for row in reader]: unpack five values (a [ValueError]
    otherwise), record a non-empty [init_poke], build the check-in, add it. *)
Definition load_row (to_ball : string -> Exn + Pokeball)
  (acc : Dict * list CheckInObj) (row : list string) : Exn + (Dict * list CheckInObj) :=
  let '(my_dict, timeline) := acc in
  match row with
  | [name; ball_type; location; time; init_poke] =>
      let my_dict := if String.eqb init_poke "" then my_dict
                     else dict_setitem my_dict name init_poke in
      match to_ball ball_type with
      | inl e => inl e
      | inr ball =>
          match CheckIn_init name ball location time with
          | inl e => inl e
          | inr checkin => inr (my_dict, add_obj checkin timeline)
          end
      end
  | _ => inl (ValueError (if (List.length row <? 5)%nat
                          then "not enough values to unpack (expected 5)"
                          else "too many values to unpack (expected 5)"))
  end.

Fixpoint load_rows (to_ball : string -> Exn + Pokeball)
  (acc : Dict * list CheckInObj) (rows : list (list string))
  : Exn + (Dict * list CheckInObj) :=
  match rows with
  | [] => inr acc
  | row :: rows' =>
      match load_row to_ball acc row with
      | inl e => inl e
      | inr acc' => load_rows to_ball acc' rows'
      end
  end.

(** [load_timeline]: [(my_dict, timeline)] from an empty dict and a new
    timeline, or the first exception raised. *)
Definition load_timeline (to_ball : string -> Exn + Pokeball) (rows : list (list string))
  : Exn + (Dict * list CheckInObj) :=
  load_rows to_ball ([], []) rows.

(** Exceptions of [main] besides those of the modelled library code. *)
Inductive MainExn :=
| Raised (e : Exn)
| KeyError (key : string)
| NameError (var : string)
| UnboundLocalError (var : string).

(** What [main] writes: a line of [print], or [pp.pprint(dict)] (its layout
    is left abstract). *)
Inductive Out :=
| Line (s : string)
| PPrint (d : Dict).

(** How [main] ends early: [sys.exit(code)], or an exception it does not
    catch. *)
Inductive Stop :=
| Exit (code : Z)
| Uncaught (e : MainExn).

(** The printed output so far, and either how the program stopped or the
    value computed. *)
Definition M (A : Type) : Type := list Out * (Stop + A).

Definition ret {A : Type} (a : A) : M A := ([], inr a).

Definition bind {A B : Type} (m : M A) (k : A -> M B) : M B :=
  let '(o1, r) := m in
  match r with
  | inl s => (o1, inl s)
  | inr a => let '(o2, r2) := k a in (o1 ++ o2, r2)
  end.

Notation "x <- m ;; k" := (bind m (fun x => k)) (at level 61, m at next level, right associativity).

Definition print (s : string) : M unit := ([Line s], inr tt).
Definition raise {A : Type} (e : MainExn) : M A := ([], inl (Uncaught e)).

(** [dict[k]]. *)
Definition dict_getitem (d : Dict) (k : string) : M string :=
  match dict_get d k with Some v => ret v | None => raise (KeyError k) end.

(** The body of the [--exchanges] loop for one pair [(p1, p2)]. *)
Definition exchange_body (d : Dict) (p : CheckInObj * CheckInObj) : M unit :=
  let '(p1, p2) := p in
  if Z.eqb (obj_pokeball p1) (obj_pokeball p2) then
    let n1 := obj_name p1 in
    let n2 := obj_name p2 in
    v1 <- dict_getitem d n1 ;;
    v2 <- dict_getitem d n2 ;;
    print (n1 ++ " meets with " ++ n2 ++ " to exchange " ++ v1 ++ " for " ++ v2)%string
  else ret tt.

(** The body of the [--skip] loop for one pair. *)
Definition skip_body (str_ball : Pokeball -> string) (p : CheckInObj * CheckInObj) : M unit :=
  let '(p1, p2) := p in
  if negb (Z.eqb (obj_pokeball p1) (obj_pokeball p2)) then
    print (obj_name p1 ++ " (with " ++ str_ball (obj_pokeball p1) ++ ") meets with "
           ++ obj_name p2 ++ " (with " ++ str_ball (obj_pokeball p2) ++ "), "
           ++ "but nothing happened.")%string
  else ret tt.

(** [for p1, p2 in timeline.rendezvous(): body]: the body runs on each
    pair the generator yields, then the generator's exception, if any,
    propagates. *)
Fixpoint for_pairs (body : CheckInObj * CheckInObj -> M unit)
  (pairs : list (CheckInObj * CheckInObj)) : M unit :=
  match pairs with
  | [] => ret tt
  | p :: pairs' => _ <- body p ;; for_pairs body pairs'
  end.

Definition for_rendezvous (body : CheckInObj * CheckInObj -> M unit)
  (rv : list (CheckInObj * CheckInObj) * option Exn) : M unit :=
  let '(pairs, e) := rv in
  _ <- for_pairs body pairs ;;
  match e with None => ret tt | Some e => raise (Raised e) end.

(** [for key in dict.keys(): if dict[key] == args.pokemon: break]: the
    key the loop leaves bound ([None] when it never ran). *)
Fixpoint pokemon_key (key : option string) (d : Dict) (pokemon : string) : option string :=
  match d with
  | [] => key
  | (k, v) :: d' => if String.eqb v pokemon then Some k else pokemon_key (Some k) d' pokemon
  end.

(** The [--pokemon] branch: [print('{} had the {}'.format(key, args.pokemon))]. *)
Definition pokemon_query (d : Dict) (pokemon : string) : M unit :=
  match pokemon_key None d pokemon with
  | None => raise (UnboundLocalError "key")
  | Some key => print (key ++ " had the " ++ pokemon)%string
  end.

(** The parsed command line ([args.checkins] is the file read into rows). *)
Record Args := mkArgs {
  arg_pokemon : string;
  arg_exchanges : bool;
  arg_skip : bool
}.

(** [main(args)]: [rv timeline] is what [timeline.rendezvous()] yields and
    raises on the loaded timeline; each of [--exchanges] and [--skip] runs
    it afresh.  The [try] covers [load_timeline] only; its third handler
    names [DataError], which main.py does not import, so an exception that
    is neither [OSError] nor [ValueError] becomes a [NameError]. *)
Definition main (to_ball : string -> Exn + Pokeball) (str_ball : Pokeball -> string)
  (rv : list CheckInObj -> list (CheckInObj * CheckInObj) * option Exn)
  (rows : list (list string)) (args : Args) : M unit :=
  loaded <- match load_timeline to_ball rows with
            | inr r => ret r
            | inl (ValueError _) =>
                _ <- print "ValueError: Problem loading data from a row in the file." ;;
                ([], inl (Exit 1))
            | inl _ => raise (NameError "DataError")
            end ;;
  let '(d, timeline) := loaded in
  _ <- (if arg_exchanges args then for_rendezvous (exchange_body d) (rv timeline)
        else ret tt) ;;
  _ <- (if arg_skip args then for_rendezvous (skip_body str_ball) (rv timeline)
        else ret tt) ;;
  if negb (String.eqb (arg_pokemon args) "") then pokemon_query d (arg_pokemon args)
  else ([PPrint d], inr tt).

(** Readings of a row used to state what [load_timeline] does: whether the
    row unpacks into five values with a convertible ball, the check-in it
    describes, and the [init_poke] it gives for agent [n], if any. *)
Definition row_ok (to_ball : string -> Exn + Pokeball) (row : list string) : bool :=
  match row with
  | [_; ball_type; _; _; _] => match to_ball ball_type with inr _ => true | inl _ => false end
  | _ => false
  end.

Definition row_checkin (to_ball : string -> Exn + Pokeball) (row : list string)
  : option CheckInObj :=
  match row with
  | [name; ball_type; location; time; _] =>
      match to_ball ball_type with
      | inr ball => Some (mkCheckInObj name ball location time)
      | inl _ => None
      end
  | _ => None
  end.

Definition initial_step (n : string) (acc : option string) (row : list string) : option string :=
  match row with
  | [name; _; _; _; init_poke] =>
      if String.eqb name n && negb (String.eqb init_poke "") then Some init_poke else acc
  | _ => acc
  end.

(** The [init_poke] of the last row of agent [n] that has one. *)
Definition last_initial (rows : list (list string)) (n : string) : option string :=
  fold_left (initial_step n) rows None.

(** A yielded pair on which the [--exchanges] loop prints a line. *)
Definition exchanging (p : CheckInObj * CheckInObj) : bool :=
  Z.eqb (obj_pokeball (fst p)) (obj_pokeball (snd p)).

(** ** Sample check-ins (the scenarios of the specification, times in
    seconds since midnight) *)
Definition alice_vault_1000 : CheckIn := mkCheckIn "Alice" 1 "Vault" 36000.
Definition bob_vault_1030 : CheckIn := mkCheckIn "Bob" 1 "Vault" 37800.
Definition carol_vault_1045 : CheckIn := mkCheckIn "Carol" 2 "Vault" 38700.
Definition bob_cave_1030 : CheckIn := mkCheckIn "Bob" 1 "Cave" 37800.
Definition one_hour : Z := 3600.

(** A ball conversion for the samples: ["1"] and ["2"] are members. *)
Definition sample_to_ball (ball_type : string) : Exn + Pokeball :=
  if String.eqb ball_type "1" then inr 1
  else if String.eqb ball_type "2" then inr 2
  else inl (ValueError "invalid literal for int() with base 10").

Definition sample_rows : list (list string) :=
  [["Alice"; "1"; "Vault"; "10:00"; "Pikachu"]%string;
   ["Bob"; "1"; "Vault"; "10:30"; "Eevee"]%string;
   ["Carol"; "1"; "Vault"; "10:45"; ""]%string].

Definition alice_obj : CheckInObj := mkCheckInObj "Alice" 1 "Vault" "10:00".
Definition bob_obj : CheckInObj := mkCheckInObj "Bob" 1 "Vault" "10:30".
Definition carol_obj : CheckInObj := mkCheckInObj "Carol" 1 "Vault" "10:45".

(** ** Facts about the windows *)

Definition time_le (a b : CheckIn) : Prop := time a <= time b.

Lemma nth_error_windows_list (l : list CheckIn) (w : Z) (i : nat) :
  nth_error (windows_list l w) i =
  match nth_error l i with Some _ => Some (window_at l w i) | None => None end.
Proof.
  unfold windows_list. rewrite nth_error_map, nth_error_seq.
  destruct (Nat.ltb i (List.length l)) eqn:Hlt.
  - apply Nat.ltb_lt in Hlt. simpl.
    destruct (nth_error l i) eqn:He; [reflexivity|].
    apply nth_error_None in He. lia.
  - apply Nat.ltb_ge in Hlt. simpl.
    destruct (nth_error l i) eqn:He; [|reflexivity].
    assert (nth_error l i <> None) as Hn by congruence.
    apply nth_error_Some in Hn. lia.
Qed.

Lemma length_windows_list (l : list CheckIn) (w : Z) :
  List.length (windows_list l w) = List.length l.
Proof. unfold windows_list. now rewrite length_map, length_seq. Qed.

Lemma skipn_nth_cons {A : Type} (l : list A) (i : nat) (a : A) :
  nth_error l i = Some a -> skipn i l = a :: skipn (S i) l.
Proof.
  revert l. induction i as [|i IH]; intros [|x l] H; simpl in *; try discriminate.
  - now injection H as ->.
  - now apply IH.
Qed.

Lemma window_at_anchor (l : list CheckIn) (w : Z) (i : nat) (a : CheckIn) :
  nth_error l i = Some a ->
  window_at l w i =
  if 0 <? w then a :: scan_window (time a) w (skipn (S i) l) else [].
Proof.
  intros H. unfold window_at. rewrite H, (skipn_nth_cons l i a H). simpl.
  now rewrite Z.sub_diag.
Qed.

Lemma scan_window_offsets (t w : Z) (rest : list CheckIn) (m : CheckIn) :
  In m (scan_window t w rest) -> time m - t < w.
Proof.
  induction rest as [|c rest IH]; simpl; [tauto|].
  destruct (time c - t <? w) eqn:Hc; simpl; [|tauto].
  intros [<- | Hin]; [now apply Z.ltb_lt | auto].
Qed.

(** Every window is empty or starts with its anchor [a], and every member
    [m] has [time m - time a < w]. *)
Lemma windows_list_shape (l : list CheckIn) (w : Z) (window : list CheckIn) :
  In window (windows_list l w) ->
  window = [] \/
  exists a rest, window = a :: rest /\ 0 < w /\
    forall m, In m (a :: rest) -> time m - time a < w.
Proof.
  intros Hin. apply In_nth_error in Hin as [i Hi].
  rewrite nth_error_windows_list in Hi.
  destruct (nth_error l i) as [a|] eqn:Ha; [|discriminate].
  injection Hi as <-. rewrite (window_at_anchor l w i a Ha).
  destruct (0 <? w) eqn:Hw; [right|now left].
  apply Z.ltb_lt in Hw.
  exists a, (scan_window (time a) w (skipn (S i) l)).
  split; [reflexivity|split; [assumption|]].
  intros m [<- | Hm]; [lia|]. exact (scan_window_offsets _ _ _ _ Hm).
Qed.

Lemma rendezvous_gen_app (ws1 ws2 : list (list CheckIn)) :
  (forall window e, In window ws1 -> rendezvous_window window <> Raise e) ->
  rendezvous_gen (ws1 ++ ws2) =
  let '(ps, e) := rendezvous_gen ws2 in (yielded ws1 ++ ps, e).
Proof.
  induction ws1 as [|window ws1 IH]; intros Hok; simpl.
  - now destruct (rendezvous_gen ws2).
  - assert (IH' := IH (fun v e Hv => Hok v e (or_intror Hv))).
    destruct (rendezvous_window window) as [|p|e] eqn:Hw.
    + exact IH'.
    + rewrite IH'. now destruct (rendezvous_gen ws2).
    + exfalso. exact (Hok window e (or_introl eq_refl) Hw).
Qed.

Lemma rendezvous_gen_yield (ws : list (list CheckIn)) (p : CheckIn * CheckIn) :
  In p (fst (rendezvous_gen ws)) ->
  exists window, In window ws /\ rendezvous_window window = Yield p.
Proof.
  induction ws as [|window ws IH]; simpl; [tauto|].
  destruct (rendezvous_window window) as [|q|e] eqn:Hw.
  - intros H. destruct (IH H) as (v & Hv & Hy). eauto.
  - destruct (rendezvous_gen ws) as [ps e] eqn:Hg. simpl.
    intros [<- | Hin]; [eauto|].
    destruct (IH Hin) as (v & Hv & Hy). eauto.
  - simpl. tauto.
Qed.

Lemma rendezvous_window_yield (window : list CheckIn) (a b : CheckIn) :
  rendezvous_window window = Yield (a, b) ->
  exists rest, window = a :: rest /\ candidate_group window = [a; b] /\ In b rest.
Proof.
  destruct window as [|first rest]; [discriminate|].
  unfold rendezvous_window, candidate_group.
  remember (filter _ rest) as f eqn:Hf.
  destruct f as [|b' [|c f']]; simpl; try discriminate.
  intros H. injection H as <- <-. exists rest. repeat split.
  assert (In b' (filter (fun window2 => String.eqb (location first) (location window2)) rest))
    as Hb by (rewrite <- Hf; left; reflexivity).
  now apply filter_In in Hb.
Qed.

(** ** Facts about [sorted] and [add] *)

Definition same_time (t : Z) (m : CheckIn) : bool := time m =? t.

Lemma sorted_head_le (y : CheckIn) (ys : list CheckIn) :
  Sorted time_le (y :: ys) -> Forall (time_le y) ys.
Proof.
  intros H. apply Sorted_StronglySorted in H.
  - now inversion H.
  - intros a b c; unfold time_le; lia.
Qed.

Lemma insert_sorted_perm (x : CheckIn) (acc : list CheckIn) :
  Permutation (x :: acc) (insert_sorted x acc).
Proof.
  induction acc as [|y ys IH]; simpl; [reflexivity|].
  destruct (CheckIn_lt x y); [reflexivity|].
  rewrite perm_swap. now constructor.
Qed.

Lemma insert_sorted_sorted (x : CheckIn) (acc : list CheckIn) :
  Sorted time_le acc -> Sorted time_le (insert_sorted x acc).
Proof.
  induction acc as [|y ys IH]; intros Hs; simpl.
  - repeat constructor.
  - unfold CheckIn_lt. destruct (time x <? time y) eqn:Hxy.
    + apply Z.ltb_lt in Hxy. constructor; [exact Hs|]. constructor. unfold time_le; lia.
    + apply Z.ltb_ge in Hxy. apply Sorted_inv in Hs as [Hys Hhd].
      constructor; [now apply IH|].
      destruct ys as [|z zs]; simpl.
      * constructor. unfold time_le; lia.
      * apply HdRel_inv in Hhd.
        destruct (CheckIn_lt x z); constructor; unfold time_le in *; lia.
Qed.

Lemma filter_none_later (t : Z) (ys : list CheckIn) :
  Forall (fun m => t < time m) ys -> filter (same_time t) ys = [].
Proof.
  induction 1 as [|z zs Hz _ IH]; simpl; [reflexivity|].
  unfold same_time at 1. destruct (time z =? t) eqn:Hzt; [apply Z.eqb_eq in Hzt; lia|].
  exact IH.
Qed.

Lemma insert_sorted_filter (x : CheckIn) (acc : list CheckIn) (t : Z) :
  Sorted time_le acc ->
  filter (same_time t) (insert_sorted x acc) =
  filter (same_time t) acc ++ filter (same_time t) [x].
Proof.
  induction acc as [|y ys IH]; intros Hs; simpl; [reflexivity|].
  unfold CheckIn_lt. destruct (time x <? time y) eqn:Hxy.
  - apply Z.ltb_lt in Hxy.
    assert (Hge := sorted_head_le y ys Hs).
    unfold same_time. simpl.
    destruct (time x =? t) eqn:Hx.
    + apply Z.eqb_eq in Hx.
      assert (filter (fun m => time m =? t) ys = []) as ->.
      { apply filter_none_later. revert Hge. apply Forall_impl.
        unfold time_le. lia. }
      assert ((time y =? t) = false) as -> by (apply Z.eqb_neq; lia).
      reflexivity.
    + now rewrite app_nil_r.
  - apply Sorted_inv in Hs as [Hys _]. simpl.
    rewrite (IH Hys). unfold same_time.
    now destruct (time y =? t).
Qed.

Lemma sorted_fold (l acc : list CheckIn) :
  Sorted time_le acc ->
  let r := fold_left (fun acc x => insert_sorted x acc) l acc in
  Sorted time_le r /\ Permutation (acc ++ l) r /\
  forall t, filter (same_time t) r = filter (same_time t) acc ++ filter (same_time t) l.
Proof.
  revert acc. induction l as [|x l IH]; intros acc Hs; simpl.
  - rewrite app_nil_r. split; [exact Hs|]. split; [reflexivity|].
    intros t. now rewrite app_nil_r.
  - destruct (IH (insert_sorted x acc) (insert_sorted_sorted x acc Hs)) as (Hr & Hp & Hf).
    split; [exact Hr|]. split.
    + rewrite <- Hp. rewrite <- insert_sorted_perm.
      now rewrite <- Permutation_middle.
    + intros t. rewrite Hf, (insert_sorted_filter x acc t Hs).
      rewrite <- app_assoc. simpl. now destruct (same_time t x).
Qed.

Lemma sorted_spec (l : list CheckIn) :
  Sorted time_le (sorted l) /\ Permutation l (sorted l) /\
  forall t, filter (same_time t) (sorted l) = filter (same_time t) l.
Proof.
  destruct (sorted_fold l [] (Sorted_nil _)) as (H1 & H2 & H3).
  split; [exact H1|]. split; [exact H2|]. exact H3.
Qed.

Lemma add_all_spec (cs : list CheckIn) (self pre : list CheckIn) :
  Sorted time_le self -> Permutation pre self ->
  (forall t, filter (same_time t) self = filter (same_time t) pre) ->
  let s := add_all cs self in
  Sorted time_le s /\ Permutation (pre ++ cs) s /\
  forall t, filter (same_time t) s = filter (same_time t) (pre ++ cs).
Proof.
  revert self pre. induction cs as [|c cs IH]; intros self pre Hs Hp Hf; simpl.
  - rewrite app_nil_r. auto.
  - destruct (sorted_spec (self ++ [c])) as (H1 & H2 & H3).
    destruct (IH (sorted (self ++ [c])) (pre ++ [c]) H1) as (G1 & G2 & G3).
    + rewrite <- H2. now apply Permutation_app_tail.
    + intros t. rewrite H3, !filter_app, Hf. reflexivity.
    + rewrite <- app_assoc in G2, G3. auto.
Qed.

(** ** Facts about the inner scan of [windows] *)

Lemma scan_window_prefix (t w : Z) (rest : list CheckIn) :
  exists k, scan_window t w rest = firstn k rest /\ (k <= List.length rest)%nat /\
    (forall j m, (j < k)%nat -> nth_error rest j = Some m -> time m - t < w) /\
    (forall m, nth_error rest k = Some m -> w <= time m - t).
Proof.
  induction rest as [|c rest IH]; simpl.
  - exists 0%nat. repeat split; intros; [lia | destruct j; discriminate | discriminate].
  - destruct (time c - t <? w) eqn:Hc.
    + apply Z.ltb_lt in Hc. destruct IH as (k & Hk & Hlen & Hin & Hout).
      exists (S k). rewrite Hk. split; [reflexivity|]. split; [lia|]. split.
      * intros [|j] m Hj Hm; simpl in Hm; [now injection Hm as <-|].
        apply (Hin j m); [lia|exact Hm].
      * exact Hout.
    + apply Z.ltb_ge in Hc. exists 0%nat. split; [reflexivity|]. split; [lia|]. split.
      * intros j m Hj. lia.
      * intros m Hm. simpl in Hm. now injection Hm as <-.
Qed.

Lemma sorted_nth_le (l : list CheckIn) (i j : nat) (a m : CheckIn) :
  Sorted time_le l -> (i <= j)%nat ->
  nth_error l i = Some a -> nth_error l j = Some m -> time a <= time m.
Proof.
  intros Hs. apply Sorted_StronglySorted in Hs; [|intros x y z; unfold time_le; lia].
  revert i j. induction Hs as [|x l Hs IH Hall]; intros i j Hij Ha Hm.
  - destruct i; discriminate.
  - destruct i as [|i], j as [|j]; simpl in Ha, Hm.
    + injection Ha as <-. injection Hm as <-. lia.
    + injection Ha as <-. apply nth_error_In in Hm.
      rewrite Forall_forall in Hall. exact (Hall m Hm).
    + lia.
    + apply (IH i j); [lia|exact Ha|exact Hm].
Qed.

(** ** The claims *)

(** C7: [<], [<=], [>], [>=] on check-ins depend on the two [time] fields
    only: check-ins with the same times compare alike whatever their other
    fields; and for equal times neither [<] nor [>] holds while [<=] and
    [>=] both hold. *)
Theorem CheckIn_compare_time_only (a b a' b' : CheckIn) :
  time a = time a' -> time b = time b' ->
  CheckIn_lt a b = CheckIn_lt a' b' /\ CheckIn_le a b = CheckIn_le a' b' /\
  CheckIn_gt a b = CheckIn_gt a' b' /\ CheckIn_ge a b = CheckIn_ge a' b' /\
  (time a = time b ->
   CheckIn_lt a b = false /\ CheckIn_gt a b = false /\
   CheckIn_le a b = true /\ CheckIn_ge a b = true).
Proof.
  intros Ha Hb. unfold CheckIn_lt, CheckIn_le, CheckIn_gt, CheckIn_ge.
  rewrite Ha, Hb. do 4 (split; [reflexivity|]).
  intros Hab. rewrite Hab, Z.gtb_ltb, Z.geb_leb, Z.ltb_irrefl, Z.leb_refl.
  repeat split.
Qed.

Lemma CheckIn_compare_time_only_witness :
  time (mkCheckIn "Alice" 1 "Vault" 36000) = time (mkCheckIn "Bob" 2 "Cave" 36000) /\
  CheckIn_lt (mkCheckIn "Alice" 1 "Vault" 36000) (mkCheckIn "Carol" 3 "Lab" 37800) =
  CheckIn_lt (mkCheckIn "Bob" 2 "Cave" 36000) (mkCheckIn "Dan" 1 "Vault" 37800).
Proof.
  split; [reflexivity|].
  refine (proj1 (CheckIn_compare_time_only (mkCheckIn "Alice" 1 "Vault" 36000)
           (mkCheckIn "Carol" 3 "Lab" 37800) (mkCheckIn "Bob" 2 "Cave" 36000)
           (mkCheckIn "Dan" 1 "Vault" 37800) eq_refl eq_refl)).
Defined.

(** C4: every [add] returns [None] and leaves [checkins] a permutation of
    the previous records plus the new one, sorted by non-decreasing time;
    after any sequence of [add] calls on a new timeline, [checkins] is
    sorted, holds exactly the added records, and the records of each
    timestamp appear in the order they were added. *)
Theorem add_sorted_stable_invariant :
  (forall (checkin : CheckIn) (self : CheckInTimeline),
     fst (add checkin self) = tt /\
     Permutation (self ++ [checkin]) (snd (add checkin self)) /\
     Sorted time_le (snd (add checkin self))) /\
  (forall cs : list CheckIn,
     let s := add_all cs CheckInTimeline_init in
     Sorted time_le s /\ Permutation cs s /\
     forall t, filter (same_time t) s = filter (same_time t) cs).
Proof.
  split.
  - intros checkin self. destruct (sorted_spec (self ++ [checkin])) as (H1 & H2 & _).
    simpl. auto.
  - intros cs. apply (add_all_spec cs [] []); auto using Sorted_nil.
Qed.

(** C3: for a sorted timeline, the window yielded at position [i] (anchor
    [a]) is the contiguous run [checkins[i:i+k]]: each member [m] has
    [time a <= time m] and [time m - time a < w], and the record at
    position [i+k], if any, has offset [>= w]. *)
Theorem windows_window_is_maximal_run (l : list CheckIn) (w : Z) (i : nat) (a : CheckIn) :
  Sorted time_le l -> nth_error l i = Some a ->
  exists k,
    nth_error (windows_list l w) i = Some (firstn k (skipn i l)) /\
    (i + k <= List.length l)%nat /\
    (forall j m, (j < k)%nat -> nth_error l (i + j) = Some m ->
       time a <= time m /\ time m - time a < w) /\
    (forall m, nth_error l (i + k) = Some m -> w <= time m - time a).
Proof.
  intros Hs Ha. rewrite nth_error_windows_list, Ha.
  destruct (scan_window_prefix (time a) w (skipn i l)) as (k & Hk & Hlen & Hin & Hout).
  exists k. unfold window_at. rewrite Ha, Hk. split; [reflexivity|].
  rewrite length_skipn in Hlen.
  assert (i < List.length l)%nat by (apply nth_error_Some; congruence).
  split; [lia|]. split.
  - intros j m Hj Hm. split.
    + apply (sorted_nth_le l i (i + j) a m Hs); [lia|exact Ha|exact Hm].
    + apply (Hin j m Hj). now rewrite nth_error_skipn.
  - intros m Hm. apply Hout. now rewrite nth_error_skipn.
Qed.

Lemma sample_timeline_sorted :
  Sorted time_le [alice_vault_1000; bob_vault_1030; carol_vault_1045].
Proof. repeat constructor; unfold time_le; simpl; lia. Qed.

Lemma windows_window_is_maximal_run_witness :
  nth_error [alice_vault_1000; bob_vault_1030; carol_vault_1045] 0 = Some alice_vault_1000 /\
  exists k,
    nth_error (windows_list [alice_vault_1000; bob_vault_1030; carol_vault_1045] one_hour) 0 =
      Some (firstn k (skipn 0 [alice_vault_1000; bob_vault_1030; carol_vault_1045])) /\
    (0 + k <= 3)%nat.
Proof.
  split; [reflexivity|].
  destruct (windows_window_is_maximal_run [alice_vault_1000; bob_vault_1030; carol_vault_1045]
              one_hour 0 alice_vault_1000 sample_timeline_sorted eq_refl)
    as (k & H1 & H2 & _).
  exists k. split; [exact H1|exact H2].
Defined.

(** ** Facts about one step of [rendezvous] *)

Lemma rendezvous_window_small (window : list CheckIn) (e : Exn) :
  window <> [] -> (List.length (candidate_group window) < 3)%nat ->
  rendezvous_window window <> Raise e.
Proof.
  destruct window as [|first rest]; [congruence|]. intros _.
  unfold rendezvous_window, candidate_group.
  remember (filter _ rest) as f eqn:Hf.
  destruct f as [|b [|c f']]; simpl; intros H; [discriminate|discriminate|lia].
Qed.

Lemma rendezvous_window_big (window : list CheckIn) :
  (3 <= List.length (candidate_group window))%nat ->
  rendezvous_window window = Raise (DataError too_many_msg).
Proof.
  destruct window as [|first rest]; simpl; [lia|].
  unfold rendezvous_window, candidate_group.
  remember (filter _ rest) as f eqn:Hf.
  destruct f as [|b [|c f']]; simpl; intros H; [lia|lia|reflexivity].
Qed.

Lemma rendezvous_window_skip (window : list CheckIn) :
  window <> [] -> (List.length (candidate_group window) < 2)%nat ->
  rendezvous_window window = Skip.
Proof.
  destruct window as [|first rest]; [congruence|]. intros _.
  unfold rendezvous_window, candidate_group.
  remember (filter _ rest) as f eqn:Hf.
  destruct f as [|b f']; simpl; intros H; [reflexivity|lia].
Qed.

Lemma windows_nonempty (l : list CheckIn) (w : Z) (window : list CheckIn) :
  0 < w -> In window (windows_list l w) -> exists a rest, window = a :: rest.
Proof.
  intros Hw Hin. apply In_nth_error in Hin as [i Hi].
  rewrite nth_error_windows_list in Hi.
  destruct (nth_error l i) as [a|] eqn:Ha; [|discriminate].
  injection Hi as <-. rewrite (window_at_anchor l w i a Ha).
  apply Z.ltb_lt in Hw. rewrite Hw. eauto.
Qed.

Lemma map_seq_all_empty (f : nat -> list CheckIn) (start len : nat) :
  (forall i, (start <= i < start + len)%nat -> f i = []) ->
  map f (seq start len) = repeat [] len.
Proof.
  revert start. induction len as [|len IH]; intros start H; simpl; [reflexivity|].
  rewrite (H start) by lia. f_equal. apply IH. intros i Hi. apply H. lia.
Qed.

Lemma first_index_such_that {A : Type} (p : A -> bool) (ws : list A) (i : nat) (x : A) :
  nth_error ws i = Some x -> p x = true ->
  exists i0 x0, (i0 <= i)%nat /\ nth_error ws i0 = Some x0 /\ p x0 = true /\
    forall j v, (j < i0)%nat -> nth_error ws j = Some v -> p v = false.
Proof.
  revert i. induction ws as [|y ys IH]; intros i Hi Hx; [destruct i; discriminate|].
  destruct (p y) eqn:Hy.
  - exists 0%nat, y. repeat split; [lia|exact Hy|]. intros j v Hj. lia.
  - destruct i as [|i]; simpl in Hi; [injection Hi as ->; congruence|].
    destruct (IH i Hi Hx) as (i0 & x0 & Hle & H0 & Hp & Hmin).
    exists (S i0), x0. repeat split; [lia|exact H0|exact Hp|].
    intros [|j] v Hj Hv; simpl in Hv; [injection Hv as <-; exact Hy|].
    apply (Hmin j v); [lia|exact Hv].
Qed.

(** C5: [windows] yields one window per check-in whatever the window
    size; an empty timeline yields no window and [rendezvous] on it yields
    no pair and raises nothing; for a positive window size the window of
    position [i] starts with its anchor [checkins[i]]. *)
Theorem windows_one_per_checkin (l : list CheckIn) (w : Z) :
  List.length (windows_list l w) = List.length l /\
  windows_list [] w = [] /\ rendezvous_list [] w = ([], None) /\
  (0 < w -> forall i a, nth_error l i = Some a ->
     exists rest, nth_error (windows_list l w) i = Some (a :: rest)).
Proof.
  split; [apply length_windows_list|]. split; [reflexivity|]. split; [reflexivity|].
  intros Hw i a Ha. rewrite nth_error_windows_list, Ha, (window_at_anchor l w i a Ha).
  apply Z.ltb_lt in Hw. rewrite Hw. eauto.
Qed.

(** C10: for a non-empty timeline and a window size [<= 0] every window
    is the empty tuple and [rendezvous] raises [IndexError] at
    [window[0]] before yielding anything; for a positive window size no
    window is empty and no step of [rendezvous] raises [IndexError]. *)
Theorem rendezvous_window0_safety (l : list CheckIn) (w : Z) :
  (l <> [] -> w <= 0 ->
     windows_list l w = repeat [] (List.length l) /\
     rendezvous_list l w = ([], Some (IndexError "tuple index out of range"))) /\
  (0 < w -> forall window, In window (windows_list l w) ->
     window <> [] /\ forall e, rendezvous_window window <> Raise (IndexError e)).
Proof.
  split.
  - intros Hl Hw.
    assert (windows_list l w = repeat [] (List.length l)) as Hws.
    { unfold windows_list. apply map_seq_all_empty. intros i Hi.
      destruct (nth_error l i) as [a|] eqn:Ha.
      + rewrite (window_at_anchor l w i a Ha).
        destruct (0 <? w) eqn:Hw'; [apply Z.ltb_lt in Hw'; lia|reflexivity].
      + apply nth_error_None in Ha. lia. }
    split; [exact Hws|]. unfold rendezvous_list. rewrite Hws.
    destruct l; [congruence|reflexivity].
  - intros Hw window Hin.
    destruct (windows_nonempty l w window Hw Hin) as (a & rest & ->).
    split; [discriminate|]. intros e.
    unfold rendezvous_window. destruct (Nat.ltb _ 2); [discriminate|].
    destruct (Nat.eqb _ 2); [|discriminate].
    destruct (candidate_group (a :: rest)) as [|x [|y [|z t]]]; discriminate.
Qed.

(** C8: [windows] and [rendezvous] only read the timeline: calling either
    twice in a row with the same window size gives the same result (the
    same pairs and the same exception) and leaves the timeline as it was. *)
Theorem windows_rendezvous_replay (self : CheckInTimeline) (w : Z) :
  (let '(r1, s1) := windows w self in
   let '(r2, s2) := windows w s1 in r1 = r2 /\ s1 = self /\ s2 = self) /\
  (let '(r1, s1) := rendezvous w self in
   let '(r2, s2) := rendezvous w s1 in r1 = r2 /\ s1 = self /\ s2 = self).
Proof. unfold windows, rendezvous. repeat split. Qed.

(** C2: every pair [(a, b)] yielded by [rendezvous] comes from a window
    whose anchor is [a], with [b] a later member of that window and the
    candidate group exactly [[a; b]]; hence [a] and [b] share a location
    and [time b - time a < w].  For a positive window size, a window whose
    candidate group has fewer than 2 members is skipped (no pair, no
    exception). *)
Theorem rendezvous_pairs_valid (l : list CheckIn) (w : Z) :
  (forall a b, In (a, b) (fst (rendezvous_list l w)) ->
     location a = location b /\ time b - time a < w /\
     exists i rest, nth_error (windows_list l w) i = Some (a :: rest) /\
       In b rest /\ candidate_group (a :: rest) = [a; b]) /\
  (0 < w -> forall window, In window (windows_list l w) ->
     (List.length (candidate_group window) < 2)%nat -> rendezvous_window window = Skip).
Proof.
  split.
  - intros a b Hp. apply rendezvous_gen_yield in Hp as (window & Hin & Hy).
    apply rendezvous_window_yield in Hy as (rest & -> & Hg & Hb).
    assert (location a = location b) as Hloc.
    { unfold candidate_group in Hg. injection Hg as Hf.
      assert (In b (filter (fun window2 => String.eqb (location a) (location window2)) rest))
        as Hbf by (rewrite Hf; left; reflexivity).
      apply filter_In in Hbf as [_ Heq]. now apply String.eqb_eq. }
    split; [exact Hloc|]. split.
    + destruct (windows_list_shape l w (a :: rest) Hin)
        as [Hnil | (a' & rest' & Heq & _ & Hoff)]; [discriminate|].
      injection Heq as <- <-. apply Hoff. right. exact Hb.
    + apply In_nth_error in Hin as [i Hi]. exists i, rest. auto.
  - intros Hw window Hin Hlt. apply rendezvous_window_skip; [|exact Hlt].
    destruct (windows_nonempty l w window Hw Hin) as (a & rest & ->). discriminate.
Qed.

(** C1: for a positive window size, if some window's candidate group has 3
    or more members, [rendezvous] ends with [DataError] at the first such
    window [i0] (which is that window when no earlier one is oversized):
    it has yielded exactly the pairs of the windows before [i0], none for
    window [i0], and nothing after it. *)
Theorem rendezvous_oversized_raises (l : list CheckIn) (w : Z) (i : nat)
  (window : list CheckIn) :
  0 < w -> nth_error (windows_list l w) i = Some window ->
  (3 <= List.length (candidate_group window))%nat ->
  exists i0 window0,
    (i0 <= i)%nat /\ nth_error (windows_list l w) i0 = Some window0 /\
    (3 <= List.length (candidate_group window0))%nat /\
    (forall j v, (j < i0)%nat -> nth_error (windows_list l w) j = Some v ->
       (List.length (candidate_group v) < 3)%nat) /\
    rendezvous_list l w =
      (yielded (firstn i0 (windows_list l w)), Some (DataError too_many_msg)).
Proof.
  intros Hw Hi Hbig.
  set (ws := windows_list l w) in *.
  destruct (first_index_such_that (fun v => Nat.leb 3 (List.length (candidate_group v)))
              ws i window Hi (proj2 (Nat.leb_le _ _) Hbig))
    as (i0 & window0 & Hle & H0 & Hp & Hmin).
  apply Nat.leb_le in Hp.
  exists i0, window0. split; [exact Hle|]. split; [exact H0|]. split; [exact Hp|].
  assert (Hsmall : forall j v, (j < i0)%nat -> nth_error ws j = Some v ->
            (List.length (candidate_group v) < 3)%nat).
  { intros j v Hj Hv. specialize (Hmin j v Hj Hv). apply Nat.leb_gt in Hmin. exact Hmin. }
  split; [exact Hsmall|].
  unfold rendezvous_list. fold ws.
  assert (ws = firstn i0 ws ++ window0 :: skipn (S i0) ws) as Hsplit.
  { rewrite <- (skipn_nth_cons ws i0 window0 H0). symmetry. apply firstn_skipn. }
  rewrite Hsplit at 1. rewrite rendezvous_gen_app.
  - simpl. rewrite (rendezvous_window_big window0 Hp).
    rewrite app_nil_r. reflexivity.
  - intros v e Hv. apply In_nth_error in Hv as [j Hj].
    rewrite nth_error_firstn in Hj.
    destruct (Nat.ltb j i0) eqn:Hji; [|discriminate]. apply Nat.ltb_lt in Hji.
    apply rendezvous_window_small.
    + destruct (windows_nonempty l w v Hw (nth_error_In _ _ Hj)) as (a & rest & ->).
      discriminate.
    + exact (Hsmall j v Hji Hj).
Qed.

Lemma rendezvous_oversized_raises_witness :
  rendezvous_list [alice_vault_1000; bob_vault_1030; carol_vault_1045] one_hour =
    ([], Some (DataError too_many_msg)) /\
  exists i0 window0,
    (i0 <= 0)%nat /\
    rendezvous_list [alice_vault_1000; bob_vault_1030; carol_vault_1045] one_hour =
      (yielded (firstn i0 (windows_list [alice_vault_1000; bob_vault_1030; carol_vault_1045]
                            one_hour)),
       Some (DataError too_many_msg)) /\
    nth_error (windows_list [alice_vault_1000; bob_vault_1030; carol_vault_1045] one_hour) i0 =
      Some window0.
Proof.
  split; [reflexivity|].
  destruct (rendezvous_oversized_raises [alice_vault_1000; bob_vault_1030; carol_vault_1045]
              one_hour 0 [alice_vault_1000; bob_vault_1030; carol_vault_1045]
              ltac:(unfold one_hour; lia) eq_refl ltac:(simpl; lia))
    as (i0 & window0 & Hle & H0 & _ & _ & Hr).
  exists i0, window0. split; [exact Hle|]. split; [exact Hr|exact H0].
Defined.

(** C6: [CheckIn.__init__] never raises: it stores its four arguments as
    given, the [time] string included, so a timestamp that no date-time
    format can parse (it has no digit at all) is accepted. *)
Theorem CheckIn_init_accepts_unparsable_time :
  (forall (name : string) (pokeball : Pokeball) (location time : string),
     CheckIn_init name pokeball location time =
     inr (mkCheckInObj name pokeball location time)) /\
  has_digit "not a time" = false /\
  CheckIn_init "Alice" 1 "Vault" "not a time" =
    inr (mkCheckInObj "Alice" 1 "Vault" "not a time").
Proof. repeat split. Qed.

(** C9: [CheckIn.__str__] raises [IndexError] for every check-in: its
    template uses the fields [{1}] to [{4}] for four positional arguments
    (indices 0 to 3), and it never uses [{0}], the agent's name. *)
Theorem CheckIn_str_raises_IndexError (str_ball : Pokeball -> string) (self : CheckInObj) :
  CheckIn_str str_ball self =
  inl (IndexError "Replacement index out of range for positional args tuple").
Proof. reflexivity. Qed.

(** ** Further properties of [add] *)

Lemma insert_sorted_last (x : CheckIn) (acc : list CheckIn) :
  Forall (fun y => time y <= time x) acc -> insert_sorted x acc = acc ++ [x].
Proof.
  induction 1 as [|y ys Hy _ IH]; simpl; [reflexivity|].
  unfold CheckIn_lt. destruct (time x <? time y) eqn:H; [apply Z.ltb_lt in H; lia|].
  now rewrite IH.
Qed.

Lemma sorted_fold_of_sorted (l acc : list CheckIn) :
  Sorted time_le (acc ++ l) ->
  fold_left (fun acc x => insert_sorted x acc) l acc = acc ++ l.
Proof.
  revert acc. induction l as [|x l IH]; intros acc Hs; simpl; [now rewrite app_nil_r|].
  assert (Forall (fun y => time y <= time x) acc) as Hacc.
  { apply Sorted_StronglySorted in Hs; [|intros a b c; unfold time_le; lia].
    clear IH. induction acc as [|y ys IHa]; [constructor|].
    simpl in Hs. inversion Hs as [|? ? Hss Hall]; subst.
    constructor.
    - rewrite Forall_forall in Hall. apply Hall. apply in_or_app. right. now left.
    - apply IHa. exact Hss. }
  rewrite (insert_sorted_last x acc Hacc), IH; rewrite <- app_assoc; [reflexivity|exact Hs].
Qed.

Lemma sorted_of_sorted (l : list CheckIn) : Sorted time_le l -> sorted l = l.
Proof. intros H. exact (sorted_fold_of_sorted l [] H). Qed.

Lemma insert_sorted_split (x : CheckIn) (acc : list CheckIn) :
  exists s1 s2, acc = s1 ++ s2 /\ Forall (fun m => time m <= time x) s1 /\
    match s2 with [] => True | y :: _ => time x < time y end /\
    insert_sorted x acc = s1 ++ x :: s2.
Proof.
  induction acc as [|y ys IH]; simpl.
  - exists [], []. repeat split; constructor.
  - unfold CheckIn_lt. destruct (time x <? time y) eqn:H.
    + apply Z.ltb_lt in H. exists [], (y :: ys). repeat split; [constructor|exact H].
    + apply Z.ltb_ge in H. destruct IH as (s1 & s2 & -> & Hs1 & Hs2 & ->).
      exists (y :: s1), s2. repeat split; [constructor; assumption|exact Hs2].
Qed.

(** X1: on a sorted timeline, [add] leaves every earlier record in place and
    puts the new check-in right after the last record whose time is not
    later than its own (so after all records of equal time), before the
    first record with a later time. *)
Theorem add_inserts_after_not_later (self : CheckInTimeline) (checkin : CheckIn) :
  Sorted time_le self ->
  exists s1 s2, self = s1 ++ s2 /\
    Forall (fun m => time m <= time checkin) s1 /\
    match s2 with [] => True | y :: _ => time checkin < time y end /\
    snd (add checkin self) = s1 ++ checkin :: s2.
Proof.
  intros Hs. simpl. unfold sorted. rewrite fold_left_app. simpl.
  rewrite (sorted_fold_of_sorted self [] Hs). apply insert_sorted_split.
Qed.

Lemma add_inserts_after_not_later_witness :
  Sorted time_le [alice_vault_1000; carol_vault_1045] /\
  exists s1 s2, [alice_vault_1000; carol_vault_1045] = s1 ++ s2 /\
    Forall (fun m => time m <= time bob_vault_1030) s1 /\
    match s2 with [] => True | y :: _ => time bob_vault_1030 < time y end /\
    snd (add bob_vault_1030 [alice_vault_1000; carol_vault_1045]) = s1 ++ bob_vault_1030 :: s2.
Proof.
  split; [repeat constructor; unfold time_le; simpl; lia|].
  apply (add_inserts_after_not_later [alice_vault_1000; carol_vault_1045] bob_vault_1030).
  repeat constructor; unfold time_le; simpl; lia.
Defined.

Lemma filter_same_time_cons (x : CheckIn) (l : list CheckIn) (t : Z) :
  filter (same_time t) (x :: l) =
  if time x =? t then x :: filter (same_time t) l else filter (same_time t) l.
Proof. reflexivity. Qed.

Lemma filter_same_time_head (x : CheckIn) (l : list CheckIn) :
  In x (filter (same_time (time x)) (x :: l)).
Proof. rewrite filter_same_time_cons, Z.eqb_refl. now left. Qed.

Lemma sorted_unique_by_time (s1 s2 : list CheckIn) :
  Sorted time_le s1 -> Sorted time_le s2 ->
  (forall t, filter (same_time t) s1 = filter (same_time t) s2) -> s1 = s2.
Proof.
  revert s2. induction s1 as [|x s1 IH]; intros s2 H1 H2 Hf.
  - destruct s2 as [|y s2]; [reflexivity|].
    specialize (Hf (time y)). rewrite filter_same_time_cons, Z.eqb_refl in Hf.
    discriminate.
  - destruct s2 as [|y s2].
    + specialize (Hf (time x)). rewrite filter_same_time_cons, Z.eqb_refl in Hf.
      discriminate.
    + assert (Hx := sorted_head_le x s1 H1). assert (Hy := sorted_head_le y s2 H2).
      rewrite Forall_forall in Hx, Hy.
      assert (time x = time y) as Hxy.
      { destruct (Z.eq_dec (time x) (time y)) as [e|ne]; [exact e|exfalso].
        assert (In x (filter (same_time (time x)) (y :: s2))) as Hin1.
        { rewrite <- Hf. apply filter_same_time_head. }
        assert (In y (filter (same_time (time y)) (x :: s1))) as Hin2.
        { rewrite Hf. apply filter_same_time_head. }
        apply filter_In in Hin1 as [[<- | Hin1] _]; [lia|].
        apply filter_In in Hin2 as [[-> | Hin2] _]; [lia|].
        specialize (Hy x Hin1). specialize (Hx y Hin2). unfold time_le in *. lia. }
      assert (Ht := Hf (time x)).
      rewrite !filter_same_time_cons, Z.eqb_refl, <- Hxy, Z.eqb_refl in Ht.
      injection Ht as <- Hrest.
      f_equal. apply IH.
      * now apply Sorted_inv in H1.
      * now apply Sorted_inv in H2.
      * intros t. specialize (Hf t). rewrite !filter_same_time_cons in Hf.
        destruct (time x =? t) eqn:Ht; [|exact Hf].
        apply Z.eqb_eq in Ht. subst t. exact Hrest.
Qed.

(** X2: the timeline built by a sequence of [add] calls on a new timeline
    depends only on the order in which the records of each timestamp were
    added: two sequences give the same timeline exactly when, for every
    timestamp, they add the records of that timestamp in the same order
    (in particular, adding records with distinct timestamps in any order
    gives the same timeline). *)
Theorem add_all_order_independent (cs1 cs2 : list CheckIn) :
  add_all cs1 CheckInTimeline_init = add_all cs2 CheckInTimeline_init <->
  forall t, filter (same_time t) cs1 = filter (same_time t) cs2.
Proof.
  destruct (add_all_spec cs1 [] [] (Sorted_nil _) (Permutation_refl _) (fun _ => eq_refl))
    as (A1 & _ & F1).
  destruct (add_all_spec cs2 [] [] (Sorted_nil _) (Permutation_refl _) (fun _ => eq_refl))
    as (A2 & _ & F2).
  simpl in A1, F1, A2, F2. unfold CheckInTimeline_init. split.
  - intros Heq t. rewrite <- F1, <- F2, Heq. reflexivity.
  - intros Hf. apply sorted_unique_by_time; [exact A1|exact A2|].
    intros t. rewrite F1, F2. apply Hf.
Qed.

(** ** Further properties of [windows] and [rendezvous] *)

Lemma scan_window_mono (t w w' : Z) (rest : list CheckIn) :
  w <= w' -> exists suffix, scan_window t w' rest = scan_window t w rest ++ suffix.
Proof.
  intros Hw. induction rest as [|c rest IH]; simpl; [now exists []|].
  destruct (time c - t <? w) eqn:H.
  - apply Z.ltb_lt in H. assert ((time c - t <? w') = true) as -> by (apply Z.ltb_lt; lia).
    destruct IH as (suffix & ->). now exists suffix.
  - now eexists.
Qed.

(** X3: enlarging the window size only extends each window: the window of
    position [i] for [w] is a prefix of the window of position [i] for any
    [w' >= w]. *)
Theorem windows_monotone (l : list CheckIn) (w w' : Z) (i : nat) (window : list CheckIn) :
  w <= w' -> nth_error (windows_list l w) i = Some window ->
  exists suffix, nth_error (windows_list l w') i = Some (window ++ suffix).
Proof.
  intros Hw Hi. rewrite nth_error_windows_list in Hi |- *.
  destruct (nth_error l i) as [a|]; [|discriminate].
  injection Hi as <-. unfold window_at.
  destruct (nth_error l i) as [b|]; [|now exists []].
  destruct (scan_window_mono (time b) w w' (skipn i l) Hw) as (suffix & ->).
  now exists suffix.
Qed.

Lemma windows_monotone_witness :
  nth_error (windows_list [alice_vault_1000; bob_vault_1030; carol_vault_1045] 1000) 0 =
    Some [alice_vault_1000] /\
  exists suffix,
    nth_error (windows_list [alice_vault_1000; bob_vault_1030; carol_vault_1045] one_hour) 0 =
      Some ([alice_vault_1000] ++ suffix).
Proof.
  split; [reflexivity|].
  apply (windows_monotone [alice_vault_1000; bob_vault_1030; carol_vault_1045] 1000 one_hour 0);
    [unfold one_hour; lia|reflexivity].
Defined.

Lemma rendezvous_window_raise_nonempty (window : list CheckIn) (e : Exn) :
  window <> [] -> rendezvous_window window = Raise e -> e = DataError too_many_msg.
Proof.
  destruct window as [|first rest]; [congruence|]. intros _.
  unfold rendezvous_window, candidate_group.
  remember (filter _ rest) as f eqn:Hf.
  destruct f as [|b [|c f']]; simpl; intros H; try discriminate.
  now injection H as <-.
Qed.

Lemma rendezvous_gen_only_data_error (ws : list (list CheckIn)) :
  (forall window, In window ws -> window <> []) ->
  snd (rendezvous_gen ws) = None \/ snd (rendezvous_gen ws) = Some (DataError too_many_msg).
Proof.
  induction ws as [|window ws IH]; intros Hne; simpl; [now left|].
  assert (IH' := IH (fun v Hv => Hne v (or_intror Hv))).
  destruct (rendezvous_window window) as [|p|e] eqn:Hw.
  - exact IH'.
  - destruct (rendezvous_gen ws) as [ps e]. exact IH'.
  - right. simpl. f_equal.
    exact (rendezvous_window_raise_nonempty window e (Hne window (or_introl eq_refl)) Hw).
Qed.

(** X4: for a positive window size, [rendezvous] either runs to its end or
    stops with [DataError]; it never raises any other exception. *)
Theorem rendezvous_only_data_error (l : list CheckIn) (w : Z) :
  0 < w ->
  snd (rendezvous_list l w) = None \/
  snd (rendezvous_list l w) = Some (DataError too_many_msg).
Proof.
  intros Hw. apply rendezvous_gen_only_data_error.
  intros window Hin. destruct (windows_nonempty l w window Hw Hin) as (a & rest & ->).
  discriminate.
Qed.

Lemma rendezvous_only_data_error_witness :
  0 < one_hour /\
  (snd (rendezvous_list [alice_vault_1000; bob_vault_1030] one_hour) = None \/
   snd (rendezvous_list [alice_vault_1000; bob_vault_1030] one_hour) =
     Some (DataError too_many_msg)).
Proof.
  split; [unfold one_hour; lia|].
  apply rendezvous_only_data_error. unfold one_hour; lia.
Defined.

(** X5: for a positive window size, when no window's candidate group has 3
    or more members, [rendezvous] raises nothing and yields, in window
    order, the pair of every window whose group has exactly two members. *)
Theorem rendezvous_all_pairs_when_no_oversized (l : list CheckIn) (w : Z) :
  0 < w ->
  (forall window, In window (windows_list l w) ->
     (List.length (candidate_group window) < 3)%nat) ->
  rendezvous_list l w = (yielded (windows_list l w), None).
Proof.
  intros Hw Hsmall. unfold rendezvous_list.
  rewrite <- (app_nil_r (windows_list l w)) at 1.
  rewrite rendezvous_gen_app.
  - simpl. now rewrite app_nil_r.
  - intros window e Hin. apply rendezvous_window_small; [|now apply Hsmall].
    destruct (windows_nonempty l w window Hw Hin) as (a & rest & ->). discriminate.
Qed.

Lemma rendezvous_all_pairs_when_no_oversized_witness :
  rendezvous_list [alice_vault_1000; bob_vault_1030] one_hour =
    ([(alice_vault_1000, bob_vault_1030)], None).
Proof.
  apply (rendezvous_all_pairs_when_no_oversized [alice_vault_1000; bob_vault_1030] one_hour).
  - unfold one_hour; lia.
  - intros window [<- | [<- | []]]; simpl; lia.
Defined.

Lemma nodup_map_skipn_notin {A B : Type} (f : A -> B) (l : list A) (i : nat) (a : A) :
  NoDup (map f l) -> nth_error l i = Some a -> ~ In (f a) (map f (skipn (S i) l)).
Proof.
  revert i. induction l as [|x l IH]; intros i Hnd Ha; [destruct i; discriminate|].
  simpl in Hnd. inversion Hnd as [|? ? Hx Hnd']; subst.
  destruct i as [|i]; simpl in Ha.
  - injection Ha as <-. simpl. exact Hx.
  - simpl. apply (IH i Hnd' Ha).
Qed.

Lemma scan_window_incl (t w : Z) (rest : list CheckIn) (m : CheckIn) :
  In m (scan_window t w rest) -> In m rest.
Proof.
  induction rest as [|c rest IH]; simpl; [tauto|].
  destruct (time c - t <? w); simpl; [|tauto]. intros [-> | H]; auto.
Qed.

Lemma rendezvous_gen_all_skip (ws : list (list CheckIn)) :
  (forall window, In window ws -> rendezvous_window window = Skip) ->
  rendezvous_gen ws = ([], None).
Proof.
  induction ws as [|window ws IH]; intros H; simpl; [reflexivity|].
  rewrite (H window (or_introl eq_refl)). apply IH. intros v Hv. apply H. now right.
Qed.

(** X6: when no two records of the timeline share a location, [rendezvous]
    with a positive window size yields no pair and raises nothing. *)
Theorem rendezvous_distinct_locations (l : list CheckIn) (w : Z) :
  0 < w -> NoDup (map location l) -> rendezvous_list l w = ([], None).
Proof.
  intros Hw Hnd. apply rendezvous_gen_all_skip. intros window Hin.
  apply rendezvous_window_skip.
  - destruct (windows_nonempty l w window Hw Hin) as (a & rest & ->). discriminate.
  - apply In_nth_error in Hin as [i Hi]. rewrite nth_error_windows_list in Hi.
    destruct (nth_error l i) as [a|] eqn:Ha; [|discriminate].
    injection Hi as <-. rewrite (window_at_anchor l w i a Ha).
    apply Z.ltb_lt in Hw. rewrite Hw. unfold candidate_group.
    assert (filter (fun window2 => String.eqb (location a) (location window2))
              (scan_window (time a) w (skipn (S i) l)) = []) as ->.
    { rewrite (filter_ext_in _ (fun _ => false)); [apply filter_false|]. intros m Hm.
      apply scan_window_incl in Hm.
      destruct (String.eqb (location a) (location m)) eqn:He; [|reflexivity].
      apply String.eqb_eq in He. exfalso.
      apply (nodup_map_skipn_notin location l i a Hnd Ha).
      rewrite He. now apply in_map. }
    simpl. lia.
Qed.

Lemma rendezvous_distinct_locations_witness :
  NoDup (map location [alice_vault_1000; bob_cave_1030]) /\
  rendezvous_list [alice_vault_1000; bob_cave_1030] one_hour = ([], None).
Proof.
  assert (NoDup (map location [alice_vault_1000; bob_cave_1030])) as Hnd.
  { simpl. constructor; [simpl; intros [H|[]]; discriminate|].
    constructor; [simpl; tauto|constructor]. }
  split; [exact Hnd|].
  apply rendezvous_distinct_locations; [unfold one_hour; lia|exact Hnd].
Defined.

(** ** Properties of [load_timeline] *)

Lemma load_row_cases (to_ball : string -> Exn + Pokeball) (acc : Dict * list CheckInObj)
  (row : list string) :
  (row_ok to_ball row = false /\ exists e, load_row to_ball acc row = inl e) \/
  (row_ok to_ball row = true /\
   exists name ball_type location time init_poke ball,
     row = [name; ball_type; location; time; init_poke] /\
     to_ball ball_type = inr ball /\
     row_checkin to_ball row = Some (mkCheckInObj name ball location time) /\
     load_row to_ball acc row =
       inr (if String.eqb init_poke "" then fst acc else dict_setitem (fst acc) name init_poke,
            add_obj (mkCheckInObj name ball location time) (snd acc))).
Proof.
  destruct acc as [my_dict timeline].
  destruct row as [|a [|b [|c [|d [|e [|f r]]]]]];
    try (left; split; [reflexivity|eexists; reflexivity]).
  unfold row_ok, row_checkin, load_row. destruct (to_ball b) as [err|ball] eqn:Hb.
  - left. split; [reflexivity|]. eexists. reflexivity.
  - right. split; [reflexivity|]. exists a, b, c, d, e, ball. repeat split; assumption.
Qed.


Lemma dict_get_setitem (d : Dict) (k v n : string) :
  dict_get (dict_setitem d k v) n = if String.eqb n k then Some v else dict_get d n.
Proof.
  induction d as [|[k' v'] d IH]; simpl; [reflexivity|].
  destruct (String.eqb k k') eqn:Hkk'.
  - apply String.eqb_eq in Hkk'. subst k'. simpl. now destruct (String.eqb n k).
  - simpl. destruct (String.eqb n k') eqn:Hnk'.
    + apply String.eqb_eq in Hnk'. subst k'.
      destruct (String.eqb n k) eqn:Hnk; [|reflexivity].
      apply String.eqb_eq in Hnk. subst k. rewrite String.eqb_refl in Hkk'. discriminate.
    + exact IH.
Qed.

Lemma dict_setitem_keys (d : Dict) (k v : string) :
  NoDup (map fst d) -> NoDup (map fst (dict_setitem d k v)).
Proof.
  assert (Hin : forall d' x, In x (map fst (dict_setitem d' k v)) -> x = k \/ In x (map fst d')).
  { induction d' as [|[k' v'] d' IH]; simpl; intros x Hx.
    - destruct Hx as [<- | []]. now left.
    - destruct (String.eqb k k') eqn:Hkk'; simpl in Hx.
      + destruct Hx as [<- | Hx]; right; [now left|now right].
      + destruct Hx as [<- | Hx]; [right; now left|].
        destruct (IH x Hx) as [-> | H]; [now left|right; now right]. }
  induction d as [|[k' v'] d IH]; simpl; intros Hnd.
  - repeat constructor. simpl. tauto.
  - inversion Hnd as [|? ? Hk' Hnd']; subst.
    destruct (String.eqb k k') eqn:Hkk'; simpl; constructor; auto.
    intros Hx. destruct (Hin d k' Hx) as [-> | H]; [|contradiction].
    rewrite String.eqb_refl in Hkk'. discriminate.
Qed.

Lemma load_rows_dict (to_ball : string -> Exn + Pokeball) (rows : list (list string))
  (d0 : Dict) (tl0 : list CheckInObj) (d : Dict) (tl : list CheckInObj) :
  NoDup (map fst d0) ->
  load_rows to_ball (d0, tl0) rows = inr (d, tl) ->
  NoDup (map fst d) /\
  forall n, dict_get d n = fold_left (initial_step n) rows (dict_get d0 n).
Proof.
  revert d0 tl0. induction rows as [|row rows IH]; intros d0 tl0 Hnd H;
    cbn -[load_row] in H.
  - injection H as <- <-. auto.
  - destruct (load_row_cases to_ball (d0, tl0) row)
      as [(_ & e & He) | (_ & name & bt & loc & tm & ip & ball & Hrow & _ & _ & Hl)].
    + rewrite He in H. discriminate.
    + rewrite Hl in H. simpl in H.
      assert (Hnd1 : NoDup (map fst (if String.eqb ip "" then d0 else dict_setitem d0 name ip))).
      { destruct (String.eqb ip ""); [exact Hnd|now apply dict_setitem_keys]. }
      destruct (IH _ _ Hnd1 H) as [Hk Hg]. split; [exact Hk|].
      intros n. rewrite Hg. simpl. f_equal. subst row. unfold initial_step.
      destruct (String.eqb ip "") eqn:Hip; simpl.
      * now rewrite andb_false_r.
      * rewrite andb_true_r, dict_get_setitem.
        destruct (String.eqb n name) eqn:Hn; rewrite String.eqb_sym, Hn; reflexivity.
Qed.

(** X8: when [load_timeline] succeeds, its dictionary has each agent at
    most once, and maps an agent to the non-empty [init_poke] of the last
    row of that agent that has one (agents without one are absent). *)
Theorem load_timeline_dict (to_ball : string -> Exn + Pokeball) (rows : list (list string))
  (d : Dict) (timeline : list CheckInObj) :
  load_timeline to_ball rows = inr (d, timeline) ->
  NoDup (map fst d) /\ forall n, dict_get d n = last_initial rows n.
Proof.
  intros H. exact (load_rows_dict to_ball rows [] [] d timeline (NoDup_nil _) H).
Qed.

Lemma load_timeline_dict_witness :
  load_timeline sample_to_ball sample_rows =
    inr ([("Alice", "Pikachu"); ("Bob", "Eevee")]%string, [alice_obj; bob_obj; carol_obj]) /\
  NoDup (map fst [("Alice", "Pikachu"); ("Bob", "Eevee")]%string) /\
  dict_get [("Alice", "Pikachu"); ("Bob", "Eevee")]%string "Carol" = last_initial sample_rows "Carol".
Proof.
  assert (H : load_timeline sample_to_ball sample_rows =
    inr ([("Alice", "Pikachu"); ("Bob", "Eevee")]%string, [alice_obj; bob_obj; carol_obj]))
    by reflexivity.
  destruct (load_timeline_dict sample_to_ball sample_rows _ _ H) as [Hnd Hg].
  split; [exact H|]. split; [exact Hnd|]. apply Hg.
Defined.

Lemma insert_sorted_obj_perm (x : CheckInObj) (acc : list CheckInObj) :
  Permutation (x :: acc) (insert_sorted_obj x acc).
Proof.
  induction acc as [|y ys IH]; simpl; [reflexivity|].
  destruct (CheckInObj_lt x y); [reflexivity|].
  rewrite perm_swap. now constructor.
Qed.

Lemma sorted_obj_perm (l : list CheckInObj) : Permutation l (sorted_obj l).
Proof.
  unfold sorted_obj.
  assert (H : forall acc, Permutation (acc ++ l)
                (fold_left (fun acc x => insert_sorted_obj x acc) l acc)).
  { induction l as [|x l IH]; intros acc; simpl; [now rewrite app_nil_r|].
    rewrite <- IH, <- insert_sorted_obj_perm. now rewrite <- Permutation_middle. }
  exact (H []).
Qed.

Lemma load_rows_timeline (to_ball : string -> Exn + Pokeball) (rows : list (list string))
  (d0 : Dict) (tl0 : list CheckInObj) (d : Dict) (tl : list CheckInObj) :
  load_rows to_ball (d0, tl0) rows = inr (d, tl) ->
  exists cs, map Some cs = map (row_checkin to_ball) rows /\ Permutation (tl0 ++ cs) tl.
Proof.
  revert d0 tl0. induction rows as [|row rows IH]; intros d0 tl0 H;
    cbn -[load_row] in H.
  - injection H as <- <-. exists []. split; [reflexivity|]. now rewrite app_nil_r.
  - destruct (load_row_cases to_ball (d0, tl0) row)
      as [(_ & e & He) | (_ & name & bt & loc & tm & ip & ball & Hrow & _ & Hc & Hl)].
    + rewrite He in H. discriminate.
    + rewrite Hl in H. simpl in H. destruct (IH _ _ H) as (cs & Hm & Hp).
      exists (mkCheckInObj name ball loc tm :: cs). split; [simpl; now rewrite Hc, Hm|].
      rewrite <- Hp. unfold add_obj. rewrite <- sorted_obj_perm.
      now rewrite <- app_assoc.
Qed.

(** X9: when [load_timeline] succeeds, every row yields its check-in (its
    name, ball, location and time string), and the timeline holds exactly
    these check-ins, one per row, none lost or duplicated. *)
Theorem load_timeline_checkins (to_ball : string -> Exn + Pokeball)
  (rows : list (list string)) (d : Dict) (timeline : list CheckInObj) :
  load_timeline to_ball rows = inr (d, timeline) ->
  exists cs, map Some cs = map (row_checkin to_ball) rows /\ Permutation cs timeline.
Proof. intros H. exact (load_rows_timeline to_ball rows [] [] d timeline H). Qed.

Lemma load_timeline_checkins_witness :
  load_timeline sample_to_ball sample_rows =
    inr ([("Alice", "Pikachu"); ("Bob", "Eevee")]%string, [alice_obj; bob_obj; carol_obj]) /\
  exists cs, map Some cs = map (row_checkin sample_to_ball) sample_rows /\
    Permutation cs [alice_obj; bob_obj; carol_obj].
Proof.
  assert (H : load_timeline sample_to_ball sample_rows =
    inr ([("Alice", "Pikachu"); ("Bob", "Eevee")]%string, [alice_obj; bob_obj; carol_obj]))
    by reflexivity.
  split; [exact H|]. exact (load_timeline_checkins sample_to_ball sample_rows _ _ H).
Defined.

(** ** Properties of [main] *)

Lemma pokemon_key_first (k0 : option string) (d1 d2 : Dict) (k pokemon : string) :
  Forall (fun kv => snd kv <> pokemon) d1 ->
  pokemon_key k0 (d1 ++ (k, pokemon) :: d2) pokemon = Some k.
Proof.
  intros H. revert k0. induction H as [|[k' v'] d1 Hv _ IH]; intros k0; simpl.
  - now rewrite String.eqb_refl.
  - simpl in Hv. destruct (String.eqb v' pokemon) eqn:He; [apply String.eqb_eq in He; contradiction|].
    apply IH.
Qed.

Lemma pokemon_key_none (k0 : option string) (d1 : Dict) (k v pokemon : string) :
  Forall (fun kv => snd kv <> pokemon) (d1 ++ [(k, v)]) ->
  pokemon_key k0 (d1 ++ [(k, v)]) pokemon = Some k.
Proof.
  revert k0. induction d1 as [|[k' v'] d1 IH]; intros k0 H; simpl in *.
  - inversion H as [|? ? Hv _]; subst. simpl in Hv.
    destruct (String.eqb v pokemon) eqn:He; [apply String.eqb_eq in He; contradiction|].
    reflexivity.
  - inversion H as [|? ? Hv Hrest]; subst. simpl in Hv.
    destruct (String.eqb v' pokemon) eqn:He; [apply String.eqb_eq in He; contradiction|].
    now apply IH.
Qed.

(** X10: the [--pokemon] query of [main] names the first agent (in the
    dictionary's insertion order) whose initial Pokemon is the one asked
    for; when no agent has it, it still names the last agent of the
    dictionary; on an empty dictionary it raises [UnboundLocalError]. *)
Theorem pokemon_query_owner (d : Dict) (pokemon : string) :
  (forall d1 k d2, d = d1 ++ (k, pokemon) :: d2 ->
     Forall (fun kv => snd kv <> pokemon) d1 ->
     pokemon_query d pokemon = ([Line (k ++ " had the " ++ pokemon)], inr tt)) /\
  (forall d1 k v, d = d1 ++ [(k, v)] -> Forall (fun kv => snd kv <> pokemon) d ->
     pokemon_query d pokemon = ([Line (k ++ " had the " ++ pokemon)], inr tt)) /\
  (d = [] -> pokemon_query d pokemon = ([], inl (Uncaught (UnboundLocalError "key")))).
Proof.
  split; [|split].
  - intros d1 k d2 -> H. unfold pokemon_query. now rewrite pokemon_key_first.
  - intros d1 k v -> H. unfold pokemon_query. now rewrite pokemon_key_none.
  - intros ->. reflexivity.
Qed.

Lemma bind_inl {A B : Type} (o : list Out) (s : Stop) (k : A -> M B) :
  bind (o, inl s) k = (o, inl s).
Proof. reflexivity. Qed.

Lemma bind_inr {A B : Type} (o : list Out) (a : A) (k : A -> M B) :
  bind (o, inr a) k = (o ++ fst (k a), snd (k a)).
Proof. unfold bind. now destruct (k a). Qed.

Definition no_exit {A : Type} (m : M A) : Prop := forall c, snd m <> inl (Exit c).

Lemma no_exit_bind {A B : Type} (m : M A) (k : A -> M B) :
  no_exit m -> (forall a, no_exit (k a)) -> no_exit (bind m k).
Proof.
  destruct m as [o [s|a]]; intros Hm Hk c.
  - rewrite bind_inl. simpl. intros Hs. injection Hs as ->. exact (Hm c eq_refl).
  - rewrite bind_inr. exact (Hk a c).
Qed.

Lemma no_exit_ret {A : Type} (a : A) : no_exit (ret a).
Proof. intros c; discriminate. Qed.

Lemma no_exit_raise {A : Type} (e : MainExn) : no_exit (@raise A e).
Proof. intros c; discriminate. Qed.

Lemma no_exit_print (s : string) : no_exit (print s).
Proof. intros c; discriminate. Qed.

Lemma no_exit_getitem (d : Dict) (k : string) : no_exit (dict_getitem d k).
Proof. unfold dict_getitem. destruct (dict_get d k); [apply no_exit_ret|apply no_exit_raise]. Qed.

Create HintDb main_db.
#[local] Hint Resolve no_exit_bind no_exit_ret no_exit_raise no_exit_print no_exit_getitem
  : main_db.

Lemma no_exit_for_rendezvous (body : CheckInObj * CheckInObj -> M unit)
  (rv : list (CheckInObj * CheckInObj) * option Exn) :
  (forall p, no_exit (body p)) -> no_exit (for_rendezvous body rv).
Proof.
  intros Hb. destruct rv as [pairs e]. unfold for_rendezvous. apply no_exit_bind.
  - induction pairs as [|p pairs IH]; simpl; auto with main_db.
  - intros _. destruct e; auto with main_db.
Qed.

Lemma no_exit_exchange (d : Dict) (p : CheckInObj * CheckInObj) : no_exit (exchange_body d p).
Proof.
  destruct p as [p1 p2]. unfold exchange_body.
  destruct (Z.eqb _ _); auto with main_db.
Qed.

Lemma no_exit_skip (str_ball : Pokeball -> string) (p : CheckInObj * CheckInObj) :
  no_exit (skip_body str_ball p).
Proof.
  destruct p as [p1 p2]. unfold skip_body.
  destruct (negb _); auto with main_db.
Qed.


Lemma for_pairs_exchange_ok (d : Dict) (pairs : list (CheckInObj * CheckInObj)) :
  (forall p1 p2, In (p1, p2) pairs -> obj_pokeball p1 = obj_pokeball p2 ->
     dict_get d (obj_name p1) <> None /\ dict_get d (obj_name p2) <> None) ->
  snd (for_pairs (exchange_body d) pairs) = inr tt /\
  List.length (fst (for_pairs (exchange_body d) pairs)) =
  List.length (filter exchanging pairs).
Proof.
  induction pairs as [|[p1 p2] pairs IH]; intros H; simpl; [auto|].
  destruct IH as [IH1 IH2]; [intros q1 q2 Hq; apply H; now right|].
  unfold exchanging at 1; simpl.
  destruct (Z.eqb (obj_pokeball p1) (obj_pokeball p2)) eqn:Hb.
  - apply Z.eqb_eq in Hb. destruct (H p1 p2 (or_introl eq_refl) Hb) as [H1 H2].
    unfold dict_getitem.
    destruct (dict_get d (obj_name p1)) as [v1|]; [|congruence].
    destruct (dict_get d (obj_name p2)) as [v2|]; [|congruence].
    unfold ret, print. rewrite !bind_inr. simpl.
    destruct (for_pairs (exchange_body d) pairs) as [o r]. simpl in *. auto.
  - unfold ret. rewrite bind_inr. simpl. auto.
Qed.



Lemma for_pairs_stop (body : CheckInObj * CheckInObj -> M unit)
  (pre post : list (CheckInObj * CheckInObj)) (x : CheckInObj * CheckInObj) (s : Stop) :
  snd (for_pairs body pre) = inr tt -> snd (body x) = inl s ->
  snd (for_pairs body (pre ++ x :: post)) = inl s.
Proof.
  induction pre as [|p pre IH]; intros Hpre Hx; simpl in *.
  - destruct (body x) as [o r]. simpl in Hx. subst r. reflexivity.
  - destruct (body p) as [o [s'|[]]]; [discriminate|].
    rewrite bind_inr. simpl. apply IH; [|exact Hx].
    rewrite bind_inr in Hpre. exact Hpre.
Qed.



Lemma for_pairs_skip_ok (str_ball : Pokeball -> string)
  (pairs : list (CheckInObj * CheckInObj)) :
  snd (for_pairs (skip_body str_ball) pairs) = inr tt /\
  List.length (fst (for_pairs (skip_body str_ball) pairs)) =
  List.length (filter (fun p => negb (exchanging p)) pairs).
Proof.
  induction pairs as [|[p1 p2] pairs [IH1 IH2]]; simpl; [auto|].
  unfold exchanging at 1; simpl.
  destruct (Z.eqb (obj_pokeball p1) (obj_pokeball p2)); simpl;
    unfold ret, print; try rewrite bind_inr; simpl;
    destruct (for_pairs (skip_body str_ball) pairs) as [o r]; simpl in *; auto.
Qed.

Lemma filter_length_partition {A : Type} (f : A -> bool) (l : list A) :
  (List.length (filter f l) + List.length (filter (fun x => negb (f x)) l))%nat =
  List.length l.
Proof.
  induction l as [|x l IH]; simpl; [reflexivity|].
  destruct (f x); simpl; lia.
Qed.

Lemma for_rendezvous_none (body : CheckInObj * CheckInObj -> M unit)
  (pairs : list (CheckInObj * CheckInObj)) :
  snd (for_pairs body pairs) = inr tt ->
  for_rendezvous body (pairs, None) = (fst (for_pairs body pairs), inr tt).
Proof.
  intros H. unfold for_rendezvous.
  destruct (for_pairs body pairs) as [o r]. simpl in H. subst r.
  rewrite bind_inr. simpl. now rewrite app_nil_r.
Qed.


